(** * Fuel-stop route optimisation: a shallow embedding of [route/routing.py]

    The development follows the Python module function by function.

    - Python [float]s are kept abstract: the class [FloatOps] lists the
      operations the module uses, and [FloatOrder] / [FloatArith] list the
      laws a proof relies on.  The laws hold of IEEE doubles away from NaN
      and overflow; every theorem says which ones it needs.
    - [geopy.distance.geodesic(a, b).miles] is an external library call; it
      is the parameter [geodesic_miles].
    - [GasStop] objects are shared and mutated in place, so they live in a
      heap addressed by references; lists of gas stops are lists of
      references.
    - A raised [IndexError] is the outcome [Raise IndexError]; the only
      unbounded loop ([while] in [calculate_waypoints]) takes fuel. *)

From Stdlib Require Import String Ascii List Bool Arith ZArith QArith Qabs Lia.
From Stdlib Require Import Permutation Sorted.
Import ListNotations.

Set Implicit Arguments.
Local Open Scope nat_scope.

(** ** Numbers *)

Class FloatOps : Type := {
  num : Type;
  fadd : num -> num -> num;
  fsub : num -> num -> num;
  fmul : num -> num -> num;
  fdiv : num -> num -> num;
  fltb : num -> num -> bool;       (* x < y  *)
  fleb : num -> num -> bool;       (* x <= y *)
  feqb : num -> num -> bool;       (* x == y *)
  finf : num;                      (* float("inf") *)
  fround2 : num -> num;            (* round(x, 2) *)
  of_int : Z -> num;               (* a Python int used where a float is expected *)
  flit : Q -> num                  (* the float a decimal literal denotes *)
}.

(** Laws of the comparisons, as they hold on floats that are not NaN. *)
Record FloatOrder (F : FloatOps) : Prop := {
  fle_total : forall x y : num, fleb x y = true \/ fleb y x = true;
  fle_trans : forall x y z : num,
      fleb x y = true -> fleb y z = true -> fleb x z = true;
  flt_fle : forall x y : num, fltb x y = negb (fleb y x);
  feq_fle : forall x y : num, feqb x y = fleb x y && fleb y x
}.

(** Laws of the arithmetic, as they hold on finite floats. *)
Record FloatArith (F : FloatOps) : Prop := {
  fround2_nonneg : forall x, fleb (flit 0) x = true -> fleb (flit 0) (fround2 x) = true;
  fadd_nonneg : forall x y,
      fleb (flit 0) x = true -> fleb (flit 0) y = true -> fleb (flit 0) (fadd x y) = true;
  fadd_incr : forall x d, fleb (flit 0) d = true -> fleb x (fadd x d) = true;
  fsub_nonneg : forall x y, fleb x y = true -> fleb (flit 0) (fsub y x) = true;
  fdiv_nonneg : forall x n,
      (0 < n)%Z -> fleb (flit 0) x = true -> fleb (flit 0) (fdiv x (of_int n)) = true;
  flit_nonneg : forall q, (0 <= q)%Q -> fleb (flit 0) (flit q) = true
}.

(** ** Outcomes of fallible code *)

Inductive exn : Type := IndexError.

Inductive result (A : Type) : Type :=
| Ok (a : A)
| Raise (e : exn).

Arguments Ok {A} a.
Arguments Raise {A} e.

Definition bind {A B : Type} (m : result A) (k : A -> result B) : result B :=
  match m with
  | Ok a => k a
  | Raise e => Raise e
  end.

Notation "x <- m ;; k" := (bind m (fun x => k))
  (at level 61, m at next level, right associativity).

(** [l[i]] for a non-negative index. *)
Definition index {A : Type} (l : list A) (i : nat) : result A :=
  match nth_error l i with
  | Some a => Ok a
  | None => Raise IndexError
  end.

(** ** Strings *)

(** [needle in hay] on Python strings. *)
Fixpoint str_contains (needle hay : string) : bool :=
  String.prefix needle hay ||
  match hay with
  | EmptyString => false
  | String _ hay' => str_contains needle hay'
  end.

Section Routing.

Context {F : FloatOps}.

(** ** Tunable constants *)

(* 10 miles per gallon *)
Definition GAS_EFFICIENCY : Z := 10.
(* all in miles *)
Definition VEHICLE_RANGE : Z := 500.
Definition WAYPOINT_INTERVAL : Z := 450.
Definition GAS_SEARCH_RADIUS : Z := 20.
Definition DETOUR_ALLOWANCE : num := flit (10 # 1).
Definition HIGHWAY_BONUS : num := flit (5 # 100).

(** ** Data model *)

Record Coordinates : Type := {
  latitude : num;
  longitude : num
}.

Record GasStop : Type := {
  truckstop_id : string;
  name : string;
  address : string;
  city : string;
  state : string;
  coordinates : Coordinates;
  price_per_gallon : num
}.

(** [bbox] is the list [min_lon, min_lat, max_lon, max_lat]; the four
    positions are the four fields. *)
Record BBox : Type := {
  min_lon : num;
  min_lat : num;
  max_lon : num;
  max_lat : num
}.

Record Route : Type := {
  origin_coordinates : Coordinates;
  destination_coordinates : Coordinates;
  distance : num;
  geometry : list Coordinates;
  bbox : BBox
}.

Record RouteSegment : Type := {
  start_coordinates : Coordinates;
  end_coordinates : Coordinates;
  seg_distance : num;
  gas_needed_gallons : num
}.

(** A reference to a [GasStop] object, and the heap of those objects. *)
Definition ref : Type := nat.
Definition heap : Type := ref -> GasStop.

Record OptimalRoute : Type := {
  total_distance : num;
  total_gas_cost : num;
  gas_stops : list ref;
  route_coordinates : list Coordinates;
  segments : list RouteSegment;
  nearby_stations : list (list ref)
}.

(** The objects a list of references denotes in a heap.  The functions that
    only read their stops ([calculate_route_segments],
    [calculate_total_gas_cost]) take the objects as the heap holds them at
    the call. *)
Definition deref (h : heap) (rs : list ref) : list GasStop := map h rs.

(** ** [calculate_total_gas_cost] *)

Fixpoint total_cost_loop (segment_index : nat) (segs : list RouteSegment)
    (stops : list GasStop) (total_cost : num) : num :=
  match segs with
  | [] => total_cost
  | segment :: rest =>
      let total_cost' :=
        if segment_index <? length stops then
          match nth_error stops segment_index with
          | Some stop =>
              fadd total_cost
                   (fmul (gas_needed_gallons segment) (price_per_gallon stop))
          | None => total_cost
          end
        else total_cost in
      total_cost_loop (S segment_index) rest stops total_cost'
  end.

Definition calculate_total_gas_cost (segs : list RouteSegment)
    (stops : list GasStop) : num :=
  match stops with
  | [] => flit 0
  | _ => fround2 (total_cost_loop 0 segs stops (flit 0))
  end.

(** ** Geometry *)

(** [geodesic(a.to_tuple(), b.to_tuple()).miles] *)
Variable geodesic_miles : Coordinates -> Coordinates -> num.

Fixpoint cumulative_loop (last : num) (prev : Coordinates)
    (rest : list Coordinates) : list num :=
  match rest with
  | [] => []
  | point :: rest' =>
      let segment_distance := geodesic_miles prev point in
      let d := fadd last segment_distance in
      d :: cumulative_loop d point rest'
  end.

Definition calculate_cumulative_distances (route_points : list Coordinates)
    : list num :=
  flit 0 ::
  match route_points with
  | [] => []
  | first :: rest => cumulative_loop (flit 0) first rest
  end.

(** ** [find_closest_route_point_index] *)

Definition euclidean_dist_squared (target_point route_point : Coordinates) : num :=
  let lat_diff := fsub (latitude target_point) (latitude route_point) in
  let lon_diff := fsub (longitude target_point) (longitude route_point) in
  fadd (fmul lat_diff lat_diff) (fmul lon_diff lon_diff).

(** Stage 1: the list [candidates] built by the [enumerate] loop. *)
Fixpoint stage1 (point_index : nat) (target_point : Coordinates)
    (route_points : list Coordinates) : list (num * nat) :=
  match route_points with
  | [] => []
  | route_point :: rest =>
      (euclidean_dist_squared target_point route_point, point_index)
        :: stage1 (S point_index) target_point rest
  end.

(** [a < b] on the tuples [(float, int)]: the first components decide
    unless they are equal. *)
Definition tuple_ltb (a b : num * nat) : bool :=
  if feqb (fst a) (fst b) then snd a <? snd b else fltb (fst a) (fst b).

(** [candidates.sort()]: a stable sort that only uses [<]. *)
Fixpoint sort_insert (x : num * nat) (l : list (num * nat)) : list (num * nat) :=
  match l with
  | [] => [x]
  | y :: l' => if tuple_ltb y x then y :: sort_insert x l' else x :: l
  end.

Fixpoint sort_tuples (l : list (num * nat)) : list (num * nat) :=
  match l with
  | [] => []
  | x :: l' => sort_insert x (sort_tuples l')
  end.

(** Stage 2: the loop over [top_candidates]. *)
Fixpoint stage2 (target_point : Coordinates) (route_points : list Coordinates)
    (top_candidates : list (num * nat)) (best_index : nat) (min_geodesic : num)
    : result nat :=
  match top_candidates with
  | [] => Ok best_index
  | (_, point_index) :: rest =>
      route_point <- index route_points point_index ;;
      let geodesic_dist := geodesic_miles target_point route_point in
      if fltb geodesic_dist min_geodesic
      then stage2 target_point route_points rest point_index geodesic_dist
      else stage2 target_point route_points rest best_index min_geodesic
  end.

Definition top_candidates (target_point : Coordinates)
    (route_points : list Coordinates) : list (num * nat) :=
  firstn 10 (sort_tuples (stage1 0 target_point route_points)).

Definition find_closest_route_point_index (target_point : Coordinates)
    (route_points : list Coordinates) : result nat :=
  stage2 target_point route_points
         (top_candidates target_point route_points) 0 finf.

(** ** Waypoints *)

Fixpoint find_point_loop (range : list nat) (route_points : list Coordinates)
    (cumulative_distances : list num) (target_distance : num)
    : result (option Coordinates) :=
  match range with
  | [] => Ok None
  | distance_index :: rest =>
      lo <- index cumulative_distances distance_index ;;
      if fleb lo target_distance then
        hi <- index cumulative_distances (S distance_index) ;;
        if fleb target_distance hi then
          p <- index route_points distance_index ;; Ok (Some p)
        else find_point_loop rest route_points cumulative_distances target_distance
      else find_point_loop rest route_points cumulative_distances target_distance
  end.

Definition find_point_at_distance (route_points : list Coordinates)
    (cumulative_distances : list num) (target_distance : num)
    : result (option Coordinates) :=
  find_point_loop (seq 0 (length cumulative_distances - 1))
                  route_points cumulative_distances target_distance.

(** The [while] loop of [calculate_waypoints]; [target_distance] is a Python
    [int].  [None] is fuel exhausted. *)
Fixpoint waypoints_loop (fuel : nat) (route : Route)
    (cumulative_distances : list num) (target_distance : Z)
    (waypoints : list Coordinates) : option (result (list Coordinates)) :=
  match fuel with
  | O => None
  | S fuel' =>
      if fltb (of_int target_distance) (distance route) then
        match find_point_at_distance (geometry route) cumulative_distances
                                     (of_int target_distance) with
        | Raise e => Some (Raise e)
        | Ok waypoint_coords =>
            let waypoints' :=
              match waypoint_coords with
              | Some c => waypoints ++ [c]
              | None => waypoints
              end in
            waypoints_loop fuel' route cumulative_distances
                           (target_distance + WAYPOINT_INTERVAL) waypoints'
        end
      else Some (Ok waypoints)
  end.

Definition calculate_waypoints (fuel : nat) (route : Route)
    : option (result (list Coordinates)) :=
  let total_distance := distance route in
  if fleb total_distance (of_int VEHICLE_RANGE) then Some (Ok [])
  else
    let cumulative_distances := calculate_cumulative_distances (geometry route) in
    waypoints_loop fuel route cumulative_distances WAYPOINT_INTERVAL [].

(** ** The station catalog *)

(** The state of the process: the heap of [GasStop] objects and the module
    global [GAS_STOPS]. *)
Record proc : Type := {
  objects : heap;
  GAS_STOPS : list ref
}.

(** The records of [data/gas_stations.json]. *)
Variable gas_data : list GasStop.

(** A load builds one object per record.  It only happens while [GAS_STOPS]
    is empty, when no earlier object is reachable, so the new objects take
    the references [0 .. len(gas_data) - 1]. *)
Definition get_gas_stops (st : proc) : proc * list ref :=
  match GAS_STOPS st with
  | _ :: _ => (st, GAS_STOPS st)
  | [] =>
      let gas_stops := seq 0 (length gas_data) in
      ({| objects := fun r => match nth_error gas_data r with
                              | Some gas_stop => gas_stop
                              | None => objects st r
                              end;
          GAS_STOPS := gas_stops |}, gas_stops)
  end.

Definition in_bbox (b : BBox) (c : Coordinates) : bool :=
  let lat := latitude c in
  let lon := longitude c in
  (fleb (min_lat b) lat && fleb lat (max_lat b))
  && (fleb (min_lon b) lon && fleb lon (max_lon b)).

Definition get_nearby_gas_stops (route : Route) (st : proc) : proc * list ref :=
  let '(st', gas_stops) := get_gas_stops st in
  (st', filter (fun gas_stop => in_bbox (bbox route)
                                        (coordinates (objects st' gas_stop)))
               gas_stops).

(** ** [select_cheapest_gas_stop] *)

Definition upd (h : heap) (r : ref) (g : GasStop) : heap :=
  fun r' => if r' =? r then g else h r'.

Definition set_price (g : GasStop) (p : num) : GasStop :=
  {| truckstop_id := truckstop_id g; name := name g; address := address g;
     city := city g; state := state g; coordinates := coordinates g;
     price_per_gallon := p |}.

(** One iteration of the loop: [stop.price_per_gallon -= HIGHWAY_BONUS]
    when ["I-" in stop.address]. *)
Definition apply_bonus (h : heap) (stop : ref) : heap :=
  if str_contains "I-" (address (h stop))
  then upd h stop (set_price (h stop)
                             (fsub (price_per_gallon (h stop)) HIGHWAY_BONUS))
  else h.

(** [min(iterable, key=..., default=None)]: the first item is kept until a
    later one has a strictly smaller key. *)
Fixpoint min_loop {A : Type} (key : A -> num) (best : A) (rest : list A) : A :=
  match rest with
  | [] => best
  | x :: rest' =>
      if fltb (key x) (key best) then min_loop key x rest'
      else min_loop key best rest'
  end.

Definition py_min {A : Type} (key : A -> num) (l : list A) : option A :=
  match l with
  | [] => None
  | x :: rest => Some (min_loop key x rest)
  end.

Definition select_cheapest_gas_stop (h : heap) (candidate_stops : list ref)
    : heap * option ref :=
  let h' := fold_left apply_bonus candidate_stops h in
  (h', py_min (fun stop => price_per_gallon (h' stop)) candidate_stops).

(** ** [find_optimal_gas_stops] *)

Definition near (h : heap) (waypoint : Coordinates) (gas_stop : ref) : bool :=
  fleb (geodesic_miles waypoint (coordinates (h gas_stop)))
       (of_int GAS_SEARCH_RADIUS).

Fixpoint optimal_stops_loop (waypoints : list Coordinates)
    (filtered_gas_stops : list ref) (h : heap)
    (optimal_stops : list ref) (all_nearby_stations : list (list ref))
    : heap * (list ref * list (list ref)) :=
  match waypoints with
  | [] => (h, (optimal_stops, all_nearby_stations))
  | waypoint :: rest =>
      let nearby_stops := filter (near h waypoint) filtered_gas_stops in
      let all_nearby_stations' := all_nearby_stations ++ [nearby_stops] in
      let '(h', best_stop) := select_cheapest_gas_stop h nearby_stops in
      let optimal_stops' :=
        match best_stop with
        | Some s => optimal_stops ++ [s]
        | None => optimal_stops
        end in
      optimal_stops_loop rest filtered_gas_stops h'
                         optimal_stops' all_nearby_stations'
  end.

Definition find_optimal_gas_stops (waypoints : list Coordinates) (route : Route)
    (st : proc) : proc * (list ref * list (list ref)) :=
  let '(st', filtered_gas_stops) := get_nearby_gas_stops route st in
  let '(h, out) :=
    optimal_stops_loop waypoints filtered_gas_stops (objects st') [] [] in
  ({| objects := h; GAS_STOPS := GAS_STOPS st' |}, out).

(** ** Segments *)

Definition calculate_route_segment_distance (start_point end_point : Coordinates)
    (route_points : list Coordinates) (cumulative_distances : list num)
    : result num :=
  start_index <- find_closest_route_point_index start_point route_points ;;
  end_index <- find_closest_route_point_index end_point route_points ;;
  to_end <- index cumulative_distances end_index ;;
  to_start <- index cumulative_distances start_index ;;
  let route_distance := fsub to_end to_start in
  Ok (fadd route_distance DETOUR_ALLOWANCE).

Fixpoint segments_loop (range : list nat) (route : Route)
    (cumulative_distances : list num) (all_points : list Coordinates)
    : result (list RouteSegment) :=
  match range with
  | [] => Ok []
  | segment_index :: rest =>
      start_point <- index all_points segment_index ;;
      end_point <- index all_points (S segment_index) ;;
      dist <- calculate_route_segment_distance start_point end_point
                (geometry route) cumulative_distances ;;
      let gas_needed := fdiv dist (of_int GAS_EFFICIENCY) in
      let segment :=
        {| start_coordinates := start_point;
           end_coordinates := end_point;
           seg_distance := fround2 dist;
           gas_needed_gallons := fround2 gas_needed |} in
      segs <- segments_loop rest route cumulative_distances all_points ;;
      Ok (segment :: segs)
  end.

(** The chain [origin, stop_1, ..., stop_n, destination]. *)
Definition all_points_of (route : Route) (stops : list GasStop)
    : list Coordinates :=
  (origin_coordinates route :: map coordinates stops)
    ++ [destination_coordinates route].

Definition calculate_route_segments (route : Route) (stops : list GasStop)
    : result (list RouteSegment) :=
  let cumulative_distances := calculate_cumulative_distances (geometry route) in
  let all_points := all_points_of route stops in
  segments_loop (seq 0 (length all_points - 1)) route
                cumulative_distances all_points.

(** ** [optimize_route]

    [get_route] is the external directions service; its answer [route] is
    the input. *)
Definition optimize_route (fuel : nat) (route : Route) (st : proc)
    : option (result (OptimalRoute * proc)) :=
  match calculate_waypoints fuel route with
  | None => None
  | Some (Raise e) => Some (Raise e)
  | Some (Ok waypoints) =>
      let '(st', (optimal_gas_stops, nearby)) :=
        find_optimal_gas_stops waypoints route st in
      Some (segs <- calculate_route_segments route
                      (deref (objects st') optimal_gas_stops) ;;
            let total_cost :=
              calculate_total_gas_cost segs
                (deref (objects st') optimal_gas_stops) in
            Ok ({| total_distance := distance route;
                   total_gas_cost := total_cost;
                   gas_stops := optimal_gas_stops;
                   route_coordinates := geometry route;
                   segments := segs;
                   nearby_stations := nearby |}, st'))
  end.

(** ** Vocabulary of the statements *)

(** The product the cost loop adds for one segment and its paired stop. *)
Definition leg_cost (p : RouteSegment * GasStop) : num :=
  fmul (gas_needed_gallons (fst p)) (price_per_gallon (snd p)).

(** [s] sits at position [i] of [l], no element of [l] has a smaller key,
    and every element before position [i] has a strictly larger one. *)
Definition first_min {A : Type} (key : A -> num) (l : list A) (i : nat) (s : A)
    : Prop :=
  nth_error l i = Some s
  /\ (forall j c, nth_error l j = Some c -> fleb (key s) (key c) = true)
  /\ (forall j c, j < i -> nth_error l j = Some c -> fltb (key s) (key c) = true).

(** [target] lies in the bracket [cumulative[i], cumulative[i + 1]]. *)
Definition bracket (cumulative_distances : list num) (target : num) (i : nat)
    : Prop :=
  exists lo hi,
    nth_error cumulative_distances i = Some lo
    /\ nth_error cumulative_distances (S i) = Some hi
    /\ fleb lo target = true /\ fleb target hi = true.

(** What the scan for one target says: a lower end point of the first
    bracket, nothing when there is no bracket, never an exception. *)
Definition scan_spec (route_points : list Coordinates)
    (cumulative_distances : list num) (target : num)
    (r : result (option Coordinates)) : Prop :=
  match r with
  | Ok (Some p) =>
      exists i, bracket cumulative_distances target i
                /\ (forall j, j < i -> ~ bracket cumulative_distances target j)
                /\ nth_error route_points i = Some p
  | Ok None => forall i, ~ bracket cumulative_distances target i
  | Raise _ => False
  end.

(** The waypoints one target contributes. *)
Definition emitted (route : Route) (target : Z) : list Coordinates :=
  match find_point_at_distance (geometry route)
          (calculate_cumulative_distances (geometry route)) (of_int target) with
  | Ok (Some p) => [p]
  | _ => []
  end.

(** The first [n] targets: [WAYPOINT_INTERVAL], [2 * WAYPOINT_INTERVAL], ... *)
Definition targets (n : nat) : list Z :=
  map (fun k => (WAYPOINT_INTERVAL * Z.of_nat k)%Z) (seq 1 n).

(** A record after [n] applications of the highway bonus. *)
Definition discounted (n : nat) (g : GasStop) : GasStop :=
  if str_contains "I-" (address g)
  then set_price g (Nat.iter n (fun p => fsub p HIGHWAY_BONUS)
                             (price_per_gallon g))
  else g.

(** How often [r] occurs in the candidate lists [ls]. *)
Definition occurrences (r : ref) (ls : list (list ref)) : nat :=
  list_sum (map (fun l => count_occ Nat.eq_dec l r) ls).

(** The geodesic distance from [target] to [route_points[i]], and the same
    as a key on candidates. *)
Definition geo_at (target : Coordinates) (route_points : list Coordinates)
    (i : nat) : num :=
  match nth_error route_points i with
  | Some p => geodesic_miles target p
  | None => finf
  end.

Definition geo_key (target : Coordinates) (route_points : list Coordinates)
    (c : num * nat) : num :=
  geo_at target route_points (snd c).

(** The orders on candidates: [a <= b] is "not [b < a]". *)
Definition tuple_lt (a b : num * nat) : Prop := tuple_ltb a b = true.
Definition tuple_le (a b : num * nat) : Prop := tuple_ltb b a = false.

(** Among the kept candidates at the same geodesic distance as the returned
    index, none has a lower index. *)
Definition ties_to_lowest_index (target : Coordinates)
    (route_points : list Coordinates) : Prop :=
  forall b,
    find_closest_route_point_index target route_points = Ok b ->
    forall c, In c (top_candidates target route_points) ->
      feqb (geo_at target route_points (snd c)) (geo_at target route_points b)
      = true ->
      b <= snd c.

(** Every segment has non-negative distance and non-negative fuel. *)
Definition all_nonnegative (segs : list RouteSegment) : Prop :=
  Forall (fun seg => fleb (flit 0) (seg_distance seg) = true
                     /\ fleb (flit 0) (gas_needed_gallons seg) = true) segs.

End Routing.

(** ** An exact instance of the numbers

    Rationals with exact arithmetic: the floats of the module without their
    rounding error.  [finf] is [2^1024], which no finite double reaches. *)

Definition q_round2 (x : Q) : Q :=
  let n := (Qnum x * 100)%Z in
  let d := Zpos (Qden x) in
  let q := (n / d)%Z in
  let r := (n mod d)%Z in
  let k := if (2 * r <? d)%Z then q
           else if (d <? 2 * r)%Z then (q + 1)%Z
           else if Z.even q then q else (q + 1)%Z in
  Qred (k # 100).

#[export] Instance QFloat : FloatOps := {|
  num := Q;
  fadd := fun x y => Qred (x + y);
  fsub := fun x y => Qred (x - y);
  fmul := fun x y => Qred (x * y);
  fdiv := fun x y => Qred (x / y);
  fltb := fun x y => negb (Qle_bool y x);
  fleb := Qle_bool;
  feqb := fun x y => Qle_bool x y && Qle_bool y x;
  finf := inject_Z (2 ^ 1024);
  fround2 := q_round2;
  of_int := inject_Z;
  flit := Qred
|}.

(** A stand-in for the geodesic: 69 miles per degree along the two axes,
    longitudes taken around the globe (180 and -180 are one meridian). *)
Definition q_abs_diff (x y : Q) : Q := Qabs (x - y).

Definition q_lon_diff (x y : Q) : Q :=
  let d := q_abs_diff x y in
  if Qle_bool d 180 then d else Qabs (360 - d).

Definition grid_miles (a b : @Coordinates QFloat) : Q :=
  Qred (69 * (q_abs_diff (latitude a) (latitude b)
              + q_lon_diff (longitude a) (longitude b)))%Q.

(** ** Example data *)

Module Example.

Local Open Scope Q_scope.

Definition at_ (lat lon : Q) : @Coordinates QFloat :=
  {| latitude := lat; longitude := lon |}.

Definition A : Coordinates := at_ 35 (-100).
Definition B : Coordinates := at_ 35 (-80).

(** A 1000-mile route whose geometry is the two end points. *)
Definition route_AB : Route :=
  {| origin_coordinates := A;
     destination_coordinates := B;
     distance := 1000;
     geometry := [A; B];
     bbox := {| min_lon := -101; min_lat := 34; max_lon := -79; max_lat := 36 |} |}.

(** A 400-mile route stored against its direction of travel. *)
Definition route_BA : Route :=
  {| origin_coordinates := B;
     destination_coordinates := A;
     distance := 400;
     geometry := [A; B];
     bbox := {| min_lon := -101; min_lat := 34; max_lon := -79; max_lat := 36 |} |}.

(** A 300-mile route. *)
Definition route_short : Route :=
  {| origin_coordinates := A;
     destination_coordinates := at_ 35 (-96);
     distance := 300;
     geometry := [A; at_ 35 (-98); at_ 35 (-96)];
     bbox := {| min_lon := -101; min_lat := 34; max_lon := -95; max_lat := 36 |} |}.

Definition highway_stop : GasStop :=
  {| truckstop_id := "1"; name := "Highway Fuel";
     address := "123 I-40 Exit 5"; city := "Shamrock"; state := "TX";
     coordinates := A; price_per_gallon := 350 # 100 |}.

Definition town_stop : GasStop :=
  {| truckstop_id := "2"; name := "Town Fuel";
     address := "45 Main St"; city := "Shamrock"; state := "TX";
     coordinates := A; price_per_gallon := 348 # 100 |}.

Definition gas_data : list GasStop := [highway_stop; town_stop].

(** A process that has not loaded the catalog yet. *)
Definition fresh : proc :=
  {| objects := fun _ => highway_stop; GAS_STOPS := [] |}.

Definition run (route : Route) (st : proc) :=
  optimize_route grid_miles gas_data 10 route st.

(** The state a run leaves behind ([st] itself when the run fails). *)
Definition state_after (route : Route) (st : proc) : proc :=
  match run route st with
  | Some (Ok (_, st')) => st'
  | _ => st
  end.

(** The prices of the chosen stops and the total cost a run reports. *)
Definition report (route : Route) (st : proc) : option (list Q * Q) :=
  match run route st with
  | Some (Ok (r, st')) =>
      Some (map price_per_gallon (deref (objects st') (gas_stops r)),
            total_gas_cost r)
  | _ => None
  end.

(** The heap once [gas_data] is loaded. *)
Definition loaded : heap := fun r => nth r gas_data town_stop.

(** Two segments and the one stop between them. *)
Definition first_leg : RouteSegment :=
  {| start_coordinates := A; end_coordinates := A;
     seg_distance := 10; gas_needed_gallons := 1 |}.

Definition last_leg : RouteSegment :=
  {| start_coordinates := A; end_coordinates := B;
     seg_distance := 1390; gas_needed_gallons := 139 |}.

Definition two_segments : list RouteSegment := [first_leg; last_leg].

(** Two points on the antimeridian and a target one degree away. *)
Definition antimeridian : list Coordinates := [at_ 0 (-180); at_ 0 180].
Definition near_antimeridian : Coordinates := at_ 0 179.

End Example.

(** * Properties *)

Unset Implicit Arguments.

Section Facts.

Context {F : FloatOps}.
Variable geodesic_miles : Coordinates -> Coordinates -> num.
Variable gas_data : list GasStop.

(** ** Cost aggregation *)

Lemma total_cost_loop_combine (segs : list RouteSegment) :
  forall (i : nat) (stops : list GasStop) (total : num),
    total_cost_loop i segs stops total
    = fold_left fadd (map leg_cost (combine segs (skipn i stops))) total.
Proof.
  induction segs as [|s segs IH]; intros i stops total; simpl.
  - reflexivity.
  - rewrite IH. destruct (Nat.ltb_spec i (length stops)) as [Hlt|Hge].
    + destruct (nth_error stops i) as [g|] eqn:Hg.
      * assert (Hsk : skipn i stops = g :: skipn (S i) stops).
        { clear -Hg. revert i Hg.
          induction stops as [|x stops IHs]; intros [|i] Hg; simpl in *;
            try discriminate.
          - now inversion Hg.
          - now apply IHs. }
        rewrite Hsk. reflexivity.
      * apply nth_error_None in Hg. lia.
    + rewrite (skipn_all2 stops) by lia.
      rewrite (skipn_all2 stops) by lia.
      now destruct segs.
Qed.

Lemma combine_app_short {A B : Type} (l l' : list A) (m : list B) :
  length l = length m -> combine (l ++ l') m = combine l m.
Proof.
  revert m. induction l as [|x l IH]; intros [|y m] H; simpl in *;
    try discriminate; try reflexivity.
  - now destruct l'.
  - f_equal. apply IH. lia.
Qed.

(** C1. With one segment more than stops, the total is the rounded sum,
    taken in index order, of [segments[i].gas_needed_gallons *
    gas_stops[i].price_per_gallon] over the indices [i] of the stops; the
    last segment has no partner and whatever it is leaves the total
    unchanged. *)
Theorem total_cost_pairs_by_index
    (Hround : fround2 (flit 0) = flit 0)
    (segs : list RouteSegment) (stops : list GasStop) :
  length segs = S (length stops) ->
  calculate_total_gas_cost segs stops
  = fround2 (fold_left fadd (map leg_cost (combine segs stops)) (flit 0))
  /\ (forall final : RouteSegment,
        calculate_total_gas_cost (removelast segs ++ [final]) stops
        = calculate_total_gas_cost segs stops).
Proof.
  intros Hlen.
  assert (Hgen : forall ss, calculate_total_gas_cost ss stops
            = fround2 (fold_left fadd (map leg_cost (combine ss stops)) (flit 0))).
  { intros ss. unfold calculate_total_gas_cost.
    destruct stops as [|g stops'].
    - rewrite combine_nil. simpl. now rewrite Hround.
    - now rewrite total_cost_loop_combine. }
  split; [apply Hgen|].
  intros final. rewrite !Hgen.
  destruct (exists_last (l := segs)) as [front [lst Hsegs]].
  { intro E. now rewrite E in Hlen. }
  subst segs. rewrite removelast_last.
  rewrite length_app in Hlen. simpl in Hlen.
  rewrite !combine_app_short by lia. reflexivity.
Qed.

(** ** Indices stay in range *)

Lemma cumulative_loop_length (rest : list Coordinates) :
  forall last prev, length (cumulative_loop geodesic_miles last prev rest)
                    = length rest.
Proof.
  induction rest as [|p rest IH]; intros last prev; simpl;
    [reflexivity | now rewrite IH].
Qed.

Lemma cumulative_length (route_points : list Coordinates) :
  length (calculate_cumulative_distances geodesic_miles route_points)
  = Nat.max 1 (length route_points).
Proof.
  destruct route_points as [|p rest]; simpl; [reflexivity|].
  rewrite cumulative_loop_length. now destruct rest.
Qed.

Lemma stage1_snd (target : Coordinates) (route_points : list Coordinates) :
  forall k, map snd (stage1 k target route_points)
            = seq k (length route_points).
Proof.
  induction route_points as [|p rest IH]; intros k; simpl;
    [reflexivity | now rewrite IH].
Qed.

Lemma sort_insert_perm (x : num * nat) (l : list (num * nat)) :
  Permutation (x :: l) (sort_insert x l).
Proof.
  induction l as [|y l IH]; simpl; [reflexivity|].
  destruct (tuple_ltb y x); [|reflexivity].
  rewrite perm_swap. now apply perm_skip.
Qed.

Lemma sort_tuples_perm (l : list (num * nat)) :
  Permutation l (sort_tuples l).
Proof.
  induction l as [|x l IH]; simpl; [reflexivity|].
  rewrite <- sort_insert_perm. now apply perm_skip.
Qed.

Lemma In_firstn {A : Type} (n : nat) (l : list A) (x : A) :
  In x (firstn n l) -> In x l.
Proof.
  intros H. rewrite <- (firstn_skipn n l). apply in_or_app. now left.
Qed.

Lemma top_candidates_in_range (target : Coordinates)
    (route_points : list Coordinates) (c : num * nat) :
  In c (top_candidates target route_points) -> snd c < length route_points.
Proof.
  unfold top_candidates. intros Hin.
  apply In_firstn in Hin.
  apply (Permutation_in _ (Permutation_sym (sort_tuples_perm _))) in Hin.
  apply (in_map snd) in Hin. rewrite stage1_snd in Hin.
  apply in_seq in Hin. lia.
Qed.

Lemma stage2_ok (target : Coordinates) (route_points : list Coordinates)
    (top : list (num * nat)) :
  (forall c, In c top -> snd c < length route_points) ->
  forall best m, exists b,
    stage2 geodesic_miles target route_points top best m = Ok b
    /\ (b = best \/ In b (map snd top)).
Proof.
  induction top as [|[d i] top IH]; intros Hrange best m; simpl.
  - exists best. auto.
  - assert (Hi : i < length route_points)
      by (apply (Hrange (d, i)); now left).
    unfold index. destruct (nth_error route_points i) as [p|] eqn:Hp.
    2:{ apply nth_error_None in Hp. lia. }
    simpl.
    assert (Hrange' : forall c, In c top -> snd c < length route_points)
      by (intros c Hc; apply Hrange; now right).
    destruct (fltb (geodesic_miles target p) m).
    + destruct (IH Hrange' i (geodesic_miles target p)) as (b & Hb & [Hbi|Hin]);
        exists b; auto.
    + destruct (IH Hrange' best m) as (b & Hb & [Hbb|Hin]); exists b; auto.
Qed.

Lemma find_closest_ok (target : Coordinates) (route_points : list Coordinates) :
  exists b,
    find_closest_route_point_index geodesic_miles target route_points = Ok b
    /\ b < length (calculate_cumulative_distances geodesic_miles route_points)
    /\ (route_points <> [] -> b < length route_points).
Proof.
  unfold find_closest_route_point_index.
  destruct (stage2_ok target route_points
              (top_candidates target route_points)
              (top_candidates_in_range target route_points) 0 finf)
    as (b & Hb & Hcase).
  exists b. split; [exact Hb|]. rewrite cumulative_length.
  destruct Hcase as [Hb0|Hin].
  - subst b. split; [lia|]. destruct route_points; [congruence|simpl; lia].
  - apply in_map_iff in Hin. destruct Hin as (c & <- & Hc).
    apply top_candidates_in_range in Hc. split; lia.
Qed.

Lemma segment_distance_ok (start_point end_point : Coordinates)
    (route_points : list Coordinates) :
  exists d,
    calculate_route_segment_distance geodesic_miles start_point end_point
      route_points (calculate_cumulative_distances geodesic_miles route_points)
    = Ok d.
Proof.
  unfold calculate_route_segment_distance.
  destruct (find_closest_ok start_point route_points) as (i & -> & Hi & _).
  destruct (find_closest_ok end_point route_points) as (j & -> & Hj & _).
  simpl. unfold index.
  destruct (nth_error _ j) as [cj|] eqn:Ej.
  2:{ apply nth_error_None in Ej. lia. }
  destruct (nth_error _ i) as [ci|] eqn:Ei.
  2:{ apply nth_error_None in Ei. lia. }
  simpl. eauto.
Qed.

(** ** Segments *)

Lemma segments_loop_ok (route : Route) (all_points : list Coordinates)
    (range : list nat) :
  (forall i, In i range -> S i < length all_points) ->
  exists segs,
    segments_loop geodesic_miles range route
      (calculate_cumulative_distances geodesic_miles (geometry route)) all_points
    = Ok segs
    /\ Forall2 (fun i seg =>
                  nth_error all_points i = Some (start_coordinates seg)
                  /\ nth_error all_points (S i) = Some (end_coordinates seg))
               range segs.
Proof.
  induction range as [|i range IH]; intros Hrange; simpl.
  - exists []. split; [reflexivity|constructor].
  - assert (Hi : S i < length all_points) by (apply Hrange; now left).
    unfold index.
    destruct (nth_error all_points i) as [s|] eqn:Es.
    2:{ apply nth_error_None in Es. lia. }
    destruct (nth_error all_points (S i)) as [e|] eqn:Ee.
    2:{ apply nth_error_None in Ee. lia. }
    cbn [bind].
    destruct (segment_distance_ok s e (geometry route)) as [d ->].
    cbn [bind].
    destruct IH as (segs & -> & Hall).
    { intros k Hk. apply Hrange. now right. }
    cbn [bind]. eexists. split; [reflexivity|].
    constructor; [|exact Hall]. simpl. auto.
Qed.

Lemma Forall2_seq_nth {A : Type} (P : nat -> A -> Prop) (l : list A) :
  forall k n, Forall2 P (seq k n) l ->
    length l = n /\ forall i a, nth_error l i = Some a -> P (k + i) a.
Proof.
  induction l as [|x l IH]; intros k n H.
  - inversion H as [Hn|]. destruct n; [|discriminate].
    split; [reflexivity|]. intros [|i] a Ha; discriminate.
  - destruct n as [|n]; inversion H; subst.
    destruct (IH (S k) n) as [Hlen Hnth]; [assumption|].
    split; [simpl; lia|].
    intros [|i] a Ha; simpl in Ha.
    + inversion Ha; subst. now rewrite Nat.add_0_r.
    + replace (k + S i) with (S k + i) by lia. now apply Hnth.
Qed.

Lemma all_points_length (route : Route) (stops : list GasStop) :
  length (all_points_of route stops) = S (S (length stops)).
Proof.
  unfold all_points_of. rewrite length_app. simpl. rewrite length_map. lia.
Qed.

Lemma route_segments_chain (route : Route) (stops : list GasStop) :
  exists segs,
    calculate_route_segments geodesic_miles route stops = Ok segs
    /\ length segs = S (length stops)
    /\ forall i seg, nth_error segs i = Some seg ->
         nth_error (all_points_of route stops) i = Some (start_coordinates seg)
         /\ nth_error (all_points_of route stops) (S i)
            = Some (end_coordinates seg).
Proof.
  unfold calculate_route_segments. cbv zeta.
  destruct (segments_loop_ok route (all_points_of route stops)
              (seq 0 (length (all_points_of route stops) - 1)))
    as (segs & Hsegs & Hall).
  { intros i Hi. apply in_seq in Hi. lia. }
  exists segs. split; [exact Hsegs|].
  apply Forall2_seq_nth in Hall. destruct Hall as [Hlen Hnth].
  split.
  - rewrite Hlen, all_points_length. lia.
  - intros i seg Hseg. exact (Hnth i seg Hseg).
Qed.

(** C8. [calculate_route_segments] returns [len(gas_stops) + 1] segments,
    and segment [i] runs from entry [i] to entry [i + 1] of the chain
    [origin, stop_1, ..., stop_n, destination]. *)
Theorem segments_follow_the_chain (route : Route) (stops : list GasStop) :
  exists segs,
    calculate_route_segments geodesic_miles route stops = Ok segs
    /\ length segs = S (length stops)
    /\ forall i seg, nth_error segs i = Some seg ->
         nth_error (all_points_of route stops) i = Some (start_coordinates seg)
         /\ nth_error (all_points_of route stops) (S i)
            = Some (end_coordinates seg).
Proof. exact (route_segments_chain route stops). Qed.

(** ** Routes within the vehicle range *)

(** C6. When the route is no longer than the vehicle range,
    [calculate_waypoints] returns the empty list, and the plan
    [optimize_route] builds has no gas stop, exactly one segment and a
    total gas cost of 0.0. *)
Theorem short_route_plan (route : Route) (fuel : nat) (st : proc) :
  fleb (distance route) (of_int VEHICLE_RANGE) = true ->
  calculate_waypoints geodesic_miles fuel route = Some (Ok [])
  /\ exists plan st',
       optimize_route geodesic_miles gas_data fuel route st
       = Some (Ok (plan, st'))
       /\ gas_stops plan = []
       /\ length (segments plan) = 1
       /\ total_gas_cost plan = flit 0.
Proof.
  intros Hshort.
  assert (Hw : calculate_waypoints geodesic_miles fuel route = Some (Ok [])).
  { unfold calculate_waypoints. cbv zeta. now rewrite Hshort. }
  split; [exact Hw|].
  unfold optimize_route. rewrite Hw.
  unfold find_optimal_gas_stops.
  destruct (get_nearby_gas_stops gas_data route st) as [st1 filtered].
  cbn [optimal_stops_loop deref map objects].
  destruct (route_segments_chain route []) as (segs & -> & Hlen & _).
  cbn [bind]. eexists. eexists. split; [reflexivity|].
  cbn [gas_stops segments total_gas_cost]. auto.
Qed.

(** ** Waypoints *)

Lemma find_point_loop_spec (route_points : list Coordinates)
    (cumulative_distances : list num) (target : num) :
  length cumulative_distances - 1 <= length route_points ->
  forall n k,
    k + n = length cumulative_distances - 1 ->
    (forall j, j < k -> ~ bracket cumulative_distances target j) ->
    scan_spec route_points cumulative_distances target
      (find_point_loop (seq k n) route_points cumulative_distances target).
Proof.
  intros Hpts. induction n as [|n IH]; intros k Hk Hbefore; simpl.
  - intros i (lo & hi & Hlo & Hhi & Hin).
    destruct (Nat.lt_ge_cases i k) as [Hi|Hi].
    + apply (Hbefore i Hi). exists lo, hi. tauto.
    + assert (Hsome : nth_error cumulative_distances (S i) <> None) by congruence.
      apply nth_error_Some in Hsome. lia.
  - unfold index.
    destruct (nth_error cumulative_distances k) as [lo|] eqn:Elo.
    2:{ apply nth_error_None in Elo. lia. }
    destruct (nth_error cumulative_distances (S k)) as [hi|] eqn:Ehi.
    2:{ apply nth_error_None in Ehi. lia. }
    cbn [bind].
    assert (Hnext : fleb lo target && fleb target hi = false ->
              forall j, j < S k -> ~ bracket cumulative_distances target j).
    { intros Hno j Hj (lo' & hi' & Hlo' & Hhi' & H1 & H2).
      destruct (Nat.eq_dec j k) as [->|Hne].
      - rewrite Elo in Hlo'. rewrite Ehi in Hhi'.
        inversion Hlo'; inversion Hhi'; subst.
        rewrite H1, H2 in Hno. discriminate.
      - apply (Hbefore j); [lia|]. exists lo', hi'. auto. }
    destruct (fleb lo target) eqn:H1; cbn [bind].
    + destruct (fleb target hi) eqn:H2.
      * destruct (nth_error route_points k) as [p|] eqn:Ep.
        2:{ apply nth_error_None in Ep. lia. }
        cbn [bind scan_spec]. exists k. repeat split; try assumption.
        exists lo, hi. auto.
      * apply IH; [lia|]. now apply Hnext.
    + apply IH; [lia|]. now apply Hnext.
Qed.

Lemma find_point_at_distance_spec (route_points : list Coordinates)
    (target : num) :
  scan_spec route_points
    (calculate_cumulative_distances geodesic_miles route_points) target
    (find_point_at_distance route_points
       (calculate_cumulative_distances geodesic_miles route_points) target).
Proof.
  unfold find_point_at_distance.
  apply find_point_loop_spec.
  - rewrite cumulative_length. lia.
  - lia.
  - intros j Hj. lia.
Qed.

Lemma waypoints_loop_unfold (route : Route) (n : nat) :
  forall (fuel : nat) (target : Z) (waypoints : list Coordinates),
    n < fuel ->
    (forall k, k < n ->
       fltb (of_int (target + WAYPOINT_INTERVAL * Z.of_nat k)) (distance route)
       = true) ->
    fltb (of_int (target + WAYPOINT_INTERVAL * Z.of_nat n)) (distance route)
    = false ->
    waypoints_loop fuel route
      (calculate_cumulative_distances geodesic_miles (geometry route))
      target waypoints
    = Some (Ok (waypoints
                ++ flat_map (emitted geodesic_miles route)
                     (map (fun k => (target + WAYPOINT_INTERVAL * Z.of_nat k)%Z)
                          (seq 0 n)))).
Proof.
  induction n as [|n IH]; intros fuel target waypoints Hfuel Hbelow Hstop;
    (destruct fuel as [|fuel]; [lia|]); simpl waypoints_loop.
  - replace (target + WAYPOINT_INTERVAL * Z.of_nat 0)%Z with target in Hstop by lia.
    rewrite Hstop. simpl. now rewrite app_nil_r.
  - assert (H0 := Hbelow 0 ltac:(lia)).
    replace (target + WAYPOINT_INTERVAL * Z.of_nat 0)%Z with target in H0 by lia.
    rewrite H0.
    pose proof (find_point_at_distance_spec (geometry route) (of_int target))
      as Hscan.
    cbn [seq map flat_map]. rewrite <- seq_shift, map_map.
    replace (target + WAYPOINT_INTERVAL * Z.of_nat 0)%Z with target by lia.
    unfold emitted at 1.
    destruct (find_point_at_distance (geometry route) _ (of_int target))
      as [wp|e]; [|contradiction].
    rewrite (IH fuel (target + WAYPOINT_INTERVAL)%Z).
    + assert (Hshift : forall k, (target + WAYPOINT_INTERVAL
                                  + WAYPOINT_INTERVAL * Z.of_nat k
                                  = target + WAYPOINT_INTERVAL * Z.of_nat (S k))%Z)
        by (intros k; lia).
      rewrite (map_ext _ _ Hshift).
      do 2 f_equal. destruct wp as [c|].
      * rewrite <- app_assoc. reflexivity.
      * reflexivity.
    + lia.
    + intros k Hk.
      replace (target + WAYPOINT_INTERVAL + WAYPOINT_INTERVAL * Z.of_nat k)%Z
        with (target + WAYPOINT_INTERVAL * Z.of_nat (S k))%Z by lia.
      apply Hbelow. lia.
    + replace (target + WAYPOINT_INTERVAL + WAYPOINT_INTERVAL * Z.of_nat n)%Z
        with (target + WAYPOINT_INTERVAL * Z.of_nat (S n))%Z by lia.
      exact Hstop.
Qed.

Lemma targets_shift (n : nat) :
  targets n
  = map (fun k => (WAYPOINT_INTERVAL + WAYPOINT_INTERVAL * Z.of_nat k)%Z)
        (seq 0 n).
Proof.
  unfold targets. rewrite <- seq_shift, map_map.
  apply map_ext. intros k. lia.
Qed.

(** C7. For every target distance the scan of the cumulative table yields
    the route point at the lower end of the first bracket
    [cumulative[i], cumulative[i + 1]] that contains the target, and nothing
    when no bracket contains it; it never fails.  The planner visits the
    targets [WAYPOINT_INTERVAL, 2 * WAYPOINT_INTERVAL, ...] below the route
    distance in order and its waypoints are exactly what these scans yield,
    a target without a bracket adding none. *)
Theorem waypoints_are_bracket_starts (route : Route) (n fuel : nat) :
  fleb (distance route) (of_int VEHICLE_RANGE) = false ->
  n < fuel ->
  (forall t, In t (targets n) -> fltb (of_int t) (distance route) = true) ->
  fltb (of_int (WAYPOINT_INTERVAL * Z.of_nat (S n))) (distance route) = false ->
  calculate_waypoints geodesic_miles fuel route
  = Some (Ok (flat_map (emitted geodesic_miles route) (targets n)))
  /\ forall t : Z,
       scan_spec (geometry route)
         (calculate_cumulative_distances geodesic_miles (geometry route))
         (of_int t)
         (find_point_at_distance (geometry route)
            (calculate_cumulative_distances geodesic_miles (geometry route))
            (of_int t)).
Proof.
  intros Hlong Hfuel Hbelow Hstop. split.
  - unfold calculate_waypoints. cbv zeta. rewrite Hlong.
    rewrite (waypoints_loop_unfold route n).
    + rewrite targets_shift. reflexivity.
    + exact Hfuel.
    + intros k Hk. apply Hbelow. rewrite targets_shift.
      apply in_map_iff. exists k. split; [reflexivity|].
      apply in_seq. lia.
    + replace (WAYPOINT_INTERVAL + WAYPOINT_INTERVAL * Z.of_nat n)%Z
        with (WAYPOINT_INTERVAL * Z.of_nat (S n))%Z by lia.
      exact Hstop.
  - intros t. apply find_point_at_distance_spec.
Qed.

(** ** The bonus loop and the heap *)

Lemma discounted_0 (g : GasStop) : discounted 0 g = g.
Proof.
  unfold discounted. destruct (str_contains "I-" (address g)); [|reflexivity].
  now destruct g.
Qed.

Lemma discounted_step (n : nat) (g : GasStop) :
  discounted n (discounted 1 g) = discounted (S n) g.
Proof.
  unfold discounted.
  destruct (str_contains "I-" (address g)) eqn:Hg; [|now rewrite Hg].
  cbn [set_price address price_per_gallon]. rewrite Hg.
  cbn [set_price truckstop_id name address city state coordinates
       price_per_gallon].
  rewrite <- Nat.iter_succ_r. reflexivity.
Qed.

Lemma discounted_add (m n : nat) (g : GasStop) :
  discounted n (discounted m g) = discounted (m + n) g.
Proof.
  revert g. induction m as [|m IH]; intros g.
  - now rewrite discounted_0.
  - rewrite <- (discounted_step m g), IH, discounted_step. reflexivity.
Qed.

Lemma apply_bonus_at (h : heap) (stop r : ref) :
  apply_bonus h stop r = if Nat.eq_dec stop r then discounted 1 (h r) else h r.
Proof.
  unfold apply_bonus, discounted, upd.
  destruct (Nat.eq_dec stop r) as [->|Hne].
  - destruct (str_contains "I-" (address (h r))); [|reflexivity].
    now rewrite Nat.eqb_refl.
  - destruct (str_contains "I-" (address (h stop))); [|reflexivity].
    destruct (Nat.eqb_spec r stop); [congruence|reflexivity].
Qed.

Lemma bonus_fold (candidate_stops : list ref) :
  forall (h : heap) (r : ref),
    fold_left apply_bonus candidate_stops h r
    = discounted (count_occ Nat.eq_dec candidate_stops r) (h r).
Proof.
  induction candidate_stops as [|c cs IH]; intros h r; simpl.
  - now rewrite discounted_0.
  - rewrite IH, apply_bonus_at.
    destruct (Nat.eq_dec c r); [apply discounted_step|reflexivity].
Qed.

Lemma occurrences_app (r : ref) (ls ls' : list (list ref)) :
  occurrences r (ls ++ ls') = occurrences r ls + occurrences r ls'.
Proof. unfold occurrences. now rewrite map_app, list_sum_app. Qed.

Lemma optimal_stops_loop_heap (filtered : list ref) (waypoints : list Coordinates) :
  forall h optimal nearby,
  exists added,
    snd (snd (optimal_stops_loop geodesic_miles waypoints filtered h
                optimal nearby)) = nearby ++ added
    /\ length added = length waypoints
    /\ (forall l r, In l added -> In r l -> In r filtered)
    /\ forall r,
         fst (optimal_stops_loop geodesic_miles waypoints filtered h
                optimal nearby) r
         = discounted (occurrences r added) (h r).
Proof.
  induction waypoints as [|w ws IH]; intros h optimal nearby; simpl.
  - exists []. rewrite app_nil_r. repeat split; try reflexivity.
    + intros l r [].
    + intros r. now rewrite discounted_0.
  - unfold select_cheapest_gas_stop. cbv zeta.
    set (near_w := filter (near geodesic_miles h w) filtered).
    set (h1 := fold_left apply_bonus near_w h).
    destruct (IH h1
                match py_min (fun stop => price_per_gallon (h1 stop)) near_w with
                | Some s => optimal ++ [s]
                | None => optimal
                end
                (nearby ++ [near_w]))
      as (added & Hnb & Hlen & Hsub & Hheap).
    exists (near_w :: added). repeat split.
    + rewrite Hnb, <- app_assoc. reflexivity.
    + simpl. now rewrite Hlen.
    + intros l r [<-|Hl] Hr.
      * unfold near_w in Hr. now apply filter_In in Hr.
      * eauto.
    + intros r. rewrite Hheap. unfold h1. rewrite bonus_fold, discounted_add.
      unfold occurrences. simpl. reflexivity.
Qed.

Lemma get_gas_stops_snd (st : proc) :
  snd (get_gas_stops gas_data st) = GAS_STOPS (fst (get_gas_stops gas_data st)).
Proof.
  unfold get_gas_stops. destruct (GAS_STOPS st) eqn:E; simpl; congruence.
Qed.

Lemma find_optimal_heap (waypoints : list Coordinates) (route : Route)
    (st : proc) :
  let out := find_optimal_gas_stops geodesic_miles gas_data waypoints route st in
  let loaded := fst (get_gas_stops gas_data st) in
  GAS_STOPS (fst out) = GAS_STOPS loaded
  /\ length (snd (snd out)) = length waypoints
  /\ (forall l r, In l (snd (snd out)) -> In r l -> In r (GAS_STOPS (fst out)))
  /\ forall r, objects (fst out) r
               = discounted (occurrences r (snd (snd out))) (objects loaded r).
Proof.
  cbv zeta. unfold find_optimal_gas_stops, get_nearby_gas_stops.
  pose proof (get_gas_stops_snd st) as Hsnd.
  destruct (get_gas_stops gas_data st) as [st1 gs]. cbn [fst snd] in *. subst gs.
  set (filtered := filter _ (GAS_STOPS st1)).
  destruct (optimal_stops_loop_heap filtered waypoints (objects st1) [] [])
    as (added & Hnb & Hlen & Hsub & Hheap).
  destruct (optimal_stops_loop geodesic_miles waypoints filtered (objects st1)
              [] []) as [h [optimal nearby]].
  cbn [fst snd objects GAS_STOPS] in *. subst nearby.
  split; [reflexivity|]. split; [|split].
  - exact Hlen.
  - intros l r Hl Hr. specialize (Hsub l r Hl Hr).
    unfold filtered in Hsub. now apply filter_In in Hsub.
  - exact Hheap.
Qed.

(** C10. A call of [select_cheapest_gas_stop] lowers the price of every
    candidate whose address contains "I-" by [HIGHWAY_BONUS], returned or
    not, and leaves the rest of its record alone.  The candidates are
    objects of the catalog [GAS_STOPS]: after a run, the heap that the
    catalog and the plan's [nearby_stations] both point into holds, for
    every station, the loaded record with the bonus taken off once for each
    candidate list it was in. *)
Theorem bonus_reaches_the_catalog :
  (forall (h : heap) (candidate_stops : list ref) (r : ref),
      NoDup candidate_stops -> In r candidate_stops ->
      str_contains "I-" (address (h r)) = true ->
      fst (select_cheapest_gas_stop h candidate_stops) r
      = set_price (h r) (fsub (price_per_gallon (h r)) HIGHWAY_BONUS))
  /\ (forall (fuel : nat) (route : Route) (st st' : proc) (plan : OptimalRoute),
        optimize_route geodesic_miles gas_data fuel route st
        = Some (Ok (plan, st')) ->
        GAS_STOPS st' = GAS_STOPS (fst (get_gas_stops gas_data st))
        /\ (forall l r, In l (nearby_stations plan) -> In r l ->
                        In r (GAS_STOPS st'))
        /\ forall r,
             objects st' r
             = discounted (occurrences r (nearby_stations plan))
                          (objects (fst (get_gas_stops gas_data st)) r)).
Proof.
  split.
  - intros h cands r Hnd Hin Hhw.
    unfold select_cheapest_gas_stop. cbv zeta. cbn [fst].
    rewrite bonus_fold.
    rewrite (proj1 (NoDup_count_occ' Nat.eq_dec cands) Hnd r Hin).
    unfold discounted. rewrite Hhw. reflexivity.
  - intros fuel route st st' plan Hrun.
    unfold optimize_route in Hrun.
    destruct (calculate_waypoints geodesic_miles fuel route) as [[ws|e]|];
      try discriminate.
    pose proof (find_optimal_heap ws route st) as Hheap. cbv zeta in Hheap.
    destruct (find_optimal_gas_stops geodesic_miles gas_data ws route st)
      as [st1 [optimal nearby]].
    cbn [fst snd] in Hheap.
    destruct (calculate_route_segments geodesic_miles route
                (deref (objects st1) optimal)) as [segs|e];
      cbn [bind] in Hrun; try discriminate.
    inversion Hrun; subst. cbn [nearby_stations].
    destruct Hheap as (Hcat & _ & Hsub & Hobj). auto.
Qed.

(** ** Comparisons *)

Section Order.

Hypothesis O : FloatOrder F.

Lemma fle_refl (x : num) : fleb x x = true.
Proof. destruct (fle_total O x x); assumption. Qed.

Lemma flt_false_fle (x y : num) : fltb x y = false -> fleb y x = true.
Proof.
  rewrite (flt_fle O). intros H. now apply negb_false_iff in H.
Qed.

Lemma flt_true_fle (x y : num) : fltb x y = true -> fleb x y = true.
Proof.
  rewrite (flt_fle O). intros H. apply negb_true_iff in H.
  destruct (fle_total O x y) as [H1|H1]; congruence.
Qed.

Lemma flt_fle_trans (x y z : num) :
  fltb x y = true -> fleb y z = true -> fltb x z = true.
Proof.
  rewrite !(flt_fle O). intros Hxy Hyz.
  apply negb_true_iff in Hxy. apply negb_true_iff.
  destruct (fleb z x) eqn:Hzx; [|reflexivity].
  rewrite (fle_trans O _ _ _ Hyz Hzx) in Hxy. discriminate.
Qed.

Lemma fle_flt_trans (x y z : num) :
  fleb x y = true -> fltb y z = true -> fltb x z = true.
Proof.
  rewrite !(flt_fle O). intros Hxy Hyz.
  apply negb_true_iff in Hyz. apply negb_true_iff.
  destruct (fleb z x) eqn:Hzx; [|reflexivity].
  rewrite (fle_trans O _ _ _ Hzx Hxy) in Hyz. discriminate.
Qed.

Lemma flt_irrefl (x : num) : fltb x x = false.
Proof. rewrite (flt_fle O), fle_refl. reflexivity. Qed.

(** ** [min] with a key *)

Lemma first_min_single {A : Type} (key : A -> num) (x : A) :
  first_min key [x] 0 x.
Proof.
  repeat split.
  - intros [|[|j]] c Hc; simpl in Hc; try discriminate.
    inversion Hc; subst. apply fle_refl.
  - intros j c Hj. lia.
Qed.

Lemma min_loop_first_min {A : Type} (key : A -> num) (rest : list A) :
  forall (pre : list A) (best : A) (i : nat),
    first_min key pre i best ->
    exists i', first_min key (pre ++ rest) i' (min_loop key best rest).
Proof.
  induction rest as [|x rest IH]; intros pre best i Hmin; simpl.
  - rewrite app_nil_r. now exists i.
  - replace (pre ++ x :: rest) with ((pre ++ [x]) ++ rest)
      by (rewrite <- app_assoc; reflexivity).
    destruct Hmin as (Hi & Hle & Hlt).
    assert (Hilt : i < length pre) by (apply nth_error_Some; congruence).
    destruct (fltb (key x) (key best)) eqn:Hx.
    + apply (IH (pre ++ [x]) x (length pre)). repeat split.
      * rewrite nth_error_app2, Nat.sub_diag by lia. reflexivity.
      * intros j c Hc. destruct (Nat.lt_ge_cases j (length pre)) as [Hj|Hj].
        -- rewrite nth_error_app1 in Hc by assumption.
           apply flt_true_fle. eapply flt_fle_trans; eauto.
        -- rewrite nth_error_app2 in Hc by assumption.
           destruct (j - length pre) as [|[|k]]; simpl in Hc; try discriminate.
           inversion Hc; subst. apply fle_refl.
      * intros j c Hj Hc. rewrite nth_error_app1 in Hc by assumption.
        eapply flt_fle_trans; eauto.
    + apply (IH (pre ++ [x]) best i). repeat split.
      * rewrite nth_error_app1 by assumption. exact Hi.
      * intros j c Hc. destruct (Nat.lt_ge_cases j (length pre)) as [Hj|Hj].
        -- rewrite nth_error_app1 in Hc by assumption. eauto.
        -- rewrite nth_error_app2 in Hc by assumption.
           destruct (j - length pre) as [|[|k]]; simpl in Hc; try discriminate.
           inversion Hc; subst. now apply flt_false_fle.
      * intros j c Hj Hc. rewrite nth_error_app1 in Hc by lia. eauto.
Qed.

Lemma py_min_first_min {A : Type} (key : A -> num) (x : A) (l : list A) :
  exists i s, py_min key (x :: l) = Some s /\ first_min key (x :: l) i s.
Proof.
  destruct (min_loop_first_min key l [x] x 0 (first_min_single key x)) as [i Hi].
  exists i, (min_loop key x l). split; [reflexivity|exact Hi].
Qed.

(** C5. [select_cheapest_gas_stop] returns nothing on an empty candidate
    list; otherwise it returns a candidate whose price, after the highway
    bonus has been applied, is the least of the candidates' prices, and
    every candidate before it in the list is strictly dearer. *)
Theorem select_cheapest_is_first_min (h : heap) (candidate_stops : list ref) :
  (candidate_stops = [] ->
     snd (select_cheapest_gas_stop h candidate_stops) = None)
  /\ (candidate_stops <> [] ->
      exists i s,
        snd (select_cheapest_gas_stop h candidate_stops) = Some s
        /\ first_min
             (fun stop => price_per_gallon
                            (fst (select_cheapest_gas_stop h candidate_stops) stop))
             candidate_stops i s).
Proof.
  split.
  - intros ->. reflexivity.
  - intros Hne. destruct candidate_stops as [|x l]; [congruence|].
    unfold select_cheapest_gas_stop. cbv zeta. cbn [fst snd].
    apply py_min_first_min.
Qed.

(** ** Sorting the candidates *)

Lemma tuple_le_iff (a b : num * nat) :
  tuple_le a b
  <-> fleb (fst a) (fst b) = true
      /\ (fleb (fst b) (fst a) = true -> snd a <= snd b).
Proof.
  unfold tuple_le, tuple_ltb.
  rewrite (feq_fle O), (flt_fle O).
  destruct (fleb (fst a) (fst b)) eqn:P, (fleb (fst b) (fst a)) eqn:Q; simpl.
  - rewrite Nat.ltb_ge. split; [intros H; split; auto | intros [_ H]; auto].
  - split; [intros _; split; [reflexivity | discriminate] | reflexivity].
  - split; [discriminate | intros [H _]; discriminate].
  - split; [discriminate | intros [H _]; discriminate].
Qed.

Lemma tuple_le_trans (a b c : num * nat) :
  tuple_le a b -> tuple_le b c -> tuple_le a c.
Proof.
  rewrite !tuple_le_iff. intros [Hab Hab'] [Hbc Hbc'].
  assert (Hac := fle_trans O _ _ _ Hab Hbc).
  split; [exact Hac|]. intros Hca.
  assert (Hcb := fle_trans O _ _ _ Hca Hab).
  assert (Hba := fle_trans O _ _ _ Hbc Hca).
  specialize (Hab' Hba). specialize (Hbc' Hcb). lia.
Qed.

Lemma tuple_lt_le (a b : num * nat) : tuple_lt a b -> tuple_le a b.
Proof.
  unfold tuple_lt. intros Hlt.
  destruct (tuple_ltb b a) eqn:Hba; [|exact Hba]. exfalso.
  assert (Hnab : ~ tuple_le b a) by (unfold tuple_le; congruence).
  assert (Hnba : ~ tuple_le a b) by (unfold tuple_le; congruence).
  rewrite tuple_le_iff in Hnab, Hnba.
  destruct (fle_total O (fst a) (fst b)) as [P|Q].
  - destruct (fleb (fst b) (fst a)) eqn:Q.
    + destruct (Nat.le_ge_cases (snd a) (snd b)); [apply Hnba | apply Hnab]; auto.
    + apply Hnba. split; [exact P | discriminate].
  - destruct (fleb (fst a) (fst b)) eqn:P.
    + destruct (Nat.le_ge_cases (snd a) (snd b)); [apply Hnba | apply Hnab]; auto.
    + apply Hnab. split; [exact Q | discriminate].
Qed.

Lemma tuple_le_lt (a b : num * nat) :
  tuple_le a b -> snd a <> snd b -> tuple_lt a b.
Proof.
  intros Hle Hne. unfold tuple_lt.
  destruct (tuple_ltb a b) eqn:Hab; [reflexivity|]. exfalso.
  change (tuple_le b a) in Hab.
  rewrite tuple_le_iff in Hle, Hab.
  destruct Hle as [P Hi], Hab as [Q Hj].
  specialize (Hi Q). specialize (Hj P). lia.
Qed.

Lemma sort_insert_sorted (x : num * nat) (l : list (num * nat)) :
  StronglySorted tuple_le l -> StronglySorted tuple_le (sort_insert x l).
Proof.
  induction l as [|y l IH]; intros Hs; simpl.
  - constructor; constructor.
  - inversion Hs as [|y' l' Hl Hy]; subst.
    destruct (tuple_ltb y x) eqn:Hyx.
    + constructor; [now apply IH|].
      apply Forall_forall. intros z Hz.
      apply (Permutation_in _ (Permutation_sym (sort_insert_perm x l))) in Hz.
      destruct Hz as [<-|Hz].
      * now apply tuple_lt_le.
      * rewrite Forall_forall in Hy. now apply Hy.
    + constructor; [exact Hs|].
      constructor; [exact Hyx|].
      apply Forall_forall. intros z Hz. rewrite Forall_forall in Hy.
      apply (tuple_le_trans x y z); [exact Hyx | now apply Hy].
Qed.

Lemma sort_tuples_sorted (l : list (num * nat)) :
  StronglySorted tuple_le (sort_tuples l).
Proof.
  induction l as [|x l IH]; simpl; [constructor | now apply sort_insert_sorted].
Qed.

Lemma sorted_strict (l : list (num * nat)) :
  StronglySorted tuple_le l -> NoDup (map snd l) -> StronglySorted tuple_lt l.
Proof.
  induction 1 as [|x l Hs IH Hx]; intros Hnd; [constructor|].
  simpl in Hnd. inversion Hnd as [|i ids Hnotin Hnd']; subst.
  constructor; [now apply IH|].
  rewrite Forall_forall in *. intros y Hy.
  apply tuple_le_lt; [now apply Hx|].
  intros E. apply Hnotin. rewrite E. now apply in_map.
Qed.

Lemma sorted_app_inv {A : Type} (R : A -> A -> Prop) (l1 l2 : list A) :
  StronglySorted R (l1 ++ l2) ->
  StronglySorted R l1 /\ (forall x y, In x l1 -> In y l2 -> R x y).
Proof.
  induction l1 as [|a l1 IH]; simpl; intros Hs.
  - split; [constructor | intros x y []].
  - inversion Hs as [|a' l' Hl Ha]; subst.
    destruct (IH Hl) as [Hs1 Hcross].
    rewrite Forall_forall in Ha. split.
    + constructor; [exact Hs1|]. apply Forall_forall.
      intros z Hz. apply Ha. apply in_or_app. now left.
    + intros x y [<-|Hx] Hy; [|now apply Hcross].
      apply Ha. apply in_or_app. now right.
Qed.

Lemma stage1_length (target : Coordinates) (route_points : list Coordinates) :
  length (stage1 0 target route_points) = length route_points.
Proof.
  rewrite <- (length_map snd), stage1_snd. apply length_seq.
Qed.

Lemma sorted_candidates_strict (target : Coordinates)
    (route_points : list Coordinates) :
  StronglySorted tuple_lt (sort_tuples (stage1 0 target route_points)).
Proof.
  apply sorted_strict; [apply sort_tuples_sorted|].
  apply (Permutation_NoDup
           (l := map snd (stage1 0 target route_points))).
  - apply Permutation_map, sort_tuples_perm.
  - rewrite stage1_snd. apply seq_NoDup.
Qed.

(** ** The two stages of the nearest-point search *)

Lemma stage2_min_loop (target : Coordinates) (route_points : list Coordinates)
    (rest : list (num * nat)) :
  (forall c, In c rest -> snd c < length route_points) ->
  forall c0,
    stage2 geodesic_miles target route_points rest (snd c0)
           (geo_key geodesic_miles target route_points c0)
    = Ok (snd (min_loop (geo_key geodesic_miles target route_points) c0 rest)).
Proof.
  induction rest as [|[d i] rest IH]; intros Hrange c0; simpl.
  - reflexivity.
  - assert (Hi : i < length route_points)
      by (apply (Hrange (d, i)); now left).
    assert (Hrest : forall c, In c rest -> snd c < length route_points)
      by (intros c Hc; apply Hrange; now right).
    unfold index.
    destruct (nth_error route_points i) as [p|] eqn:Hp.
    2:{ apply nth_error_None in Hp. lia. }
    cbn [bind].
    assert (Hkey : geo_key geodesic_miles target route_points (d, i)
                   = geodesic_miles target p)
      by (unfold geo_key, geo_at; cbn [snd]; now rewrite Hp).
    rewrite Hkey.
    destruct (fltb (geodesic_miles target p)
                   (geo_key geodesic_miles target route_points c0)).
    + rewrite <- Hkey. exact (IH Hrest (d, i)).
    + exact (IH Hrest c0).
Qed.

Lemma closest_index_stages (target : Coordinates)
    (route_points : list Coordinates) :
  route_points <> [] ->
  (forall p, In p route_points -> fltb (geodesic_miles target p) finf = true) ->
  let candidates := stage1 0 target route_points in
  let top := top_candidates target route_points in
  length top = Nat.min 10 (length route_points)
  /\ (exists others,
        Permutation (top ++ others) candidates
        /\ forall x y, In x top -> In y others -> tuple_lt x y)
  /\ StronglySorted tuple_lt top
  /\ exists k best,
       find_closest_route_point_index geodesic_miles target route_points
       = Ok (snd best)
       /\ first_min (geo_key geodesic_miles target route_points) top k best.
Proof.
  intros Hne Hfin. cbv zeta. unfold top_candidates.
  set (sorted := sort_tuples (stage1 0 target route_points)).
  assert (Hlen : length (firstn 10 sorted) = Nat.min 10 (length route_points)).
  { rewrite length_firstn. unfold sorted.
    rewrite <- (Permutation_length (sort_tuples_perm _)), stage1_length.
    reflexivity. }
  pose proof (sorted_candidates_strict target route_points) as Hs.
  fold sorted in Hs. rewrite <- (firstn_skipn 10 sorted) in Hs.
  destruct (sorted_app_inv _ _ _ Hs) as [Htop Hcross].
  split; [exact Hlen|]. split; [|split; [exact Htop|]].
  - exists (skipn 10 sorted). split; [|exact Hcross].
    rewrite firstn_skipn. apply Permutation_sym, sort_tuples_perm.
  - unfold find_closest_route_point_index, top_candidates. fold sorted.
    pose proof (top_candidates_in_range target route_points) as Hrange.
    unfold top_candidates in Hrange. fold sorted in Hrange.
    destruct (firstn 10 sorted) as [|c rest] eqn:Etop.
    { destruct route_points; [congruence|]. simpl in Hlen. discriminate. }
    destruct c as [d i]. cbn [stage2].
    assert (Hi : i < length route_points)
      by (apply (Hrange (d, i)); now left).
    unfold index.
    destruct (nth_error route_points i) as [p|] eqn:Hp.
    2:{ apply nth_error_None in Hp. lia. }
    cbn [bind]. rewrite (Hfin p (nth_error_In _ _ Hp)).
    assert (Hkey : geo_key geodesic_miles target route_points (d, i)
                   = geodesic_miles target p)
      by (unfold geo_key, geo_at; cbn [snd]; now rewrite Hp).
    rewrite <- Hkey.
    change i with (snd (d, i)) at 1.
    rewrite stage2_min_loop by (intros c Hc; apply Hrange; now right).
    destruct (min_loop_first_min (geo_key geodesic_miles target route_points)
                rest [(d, i)] (d, i) 0
                (first_min_single _ (d, i))) as [k Hk].
    exists k. eexists. split; [reflexivity|exact Hk].
Qed.

(** C4 (as amended). On a non-empty point list whose geodesic distances are
    finite, [find_closest_route_point_index] keeps the 10 candidates that
    come first when the points are ordered by squared planar difference and
    then by index (all of them when there are at most 10), in that order,
    and returns, among those only, an index of least geodesic distance; of
    several such it returns the one that comes first in that order, which
    need not be the one of lowest index. *)
Theorem closest_index_two_stage (target : Coordinates)
    (route_points : list Coordinates) :
  route_points <> [] ->
  (forall p, In p route_points -> fltb (geodesic_miles target p) finf = true) ->
  let candidates := stage1 0 target route_points in
  let top := top_candidates target route_points in
  length top = Nat.min 10 (length route_points)
  /\ (exists others,
        Permutation (top ++ others) candidates
        /\ forall x y, In x top -> In y others -> tuple_lt x y)
  /\ StronglySorted tuple_lt top
  /\ (length route_points <= 10 -> Permutation top candidates)
  /\ exists k best,
       find_closest_route_point_index geodesic_miles target route_points
       = Ok (snd best)
       /\ first_min (geo_key geodesic_miles target route_points) top k best.
Proof.
  intros Hne Hfin.
  destruct (closest_index_stages target route_points Hne Hfin)
    as (Hlen & (others & Hperm & Hcross) & Hsorted & Hbest).
  cbv zeta. split; [exact Hlen|].
  split; [exists others; split; assumption|].
  split; [exact Hsorted|]. split; [|exact Hbest].
  intros Hfew.
  assert (Hothers : others = []).
  { apply Permutation_length in Hperm.
    rewrite length_app, stage1_length, Hlen in Hperm.
    destruct others; [reflexivity|]. cbn [length] in Hperm. lia. }
  subst others. now rewrite app_nil_r in Hperm.
Qed.

(** ** Signs of the segment figures *)

Section Arith.

Hypothesis A : FloatArith F.
Hypothesis geodesic_nonneg :
  forall a b, fleb (flit 0) (geodesic_miles a b) = true.

Lemma cumulative_loop_sorted (rest : list Coordinates) :
  forall last prev,
    StronglySorted (fun x y => fleb x y = true)
                   (last :: cumulative_loop geodesic_miles last prev rest).
Proof.
  induction rest as [|p rest IH]; intros last prev; simpl.
  - constructor; constructor.
  - set (d := fadd last (geodesic_miles prev p)).
    assert (Hd : fleb last d = true)
      by (apply (fadd_incr A), geodesic_nonneg).
    specialize (IH d p). constructor; [exact IH|].
    inversion IH as [|x l Hl Hx]; subst.
    constructor; [exact Hd|].
    rewrite Forall_forall in *. intros z Hz.
    apply (fle_trans O last d z Hd). now apply Hx.
Qed.

Lemma cumulative_sorted (route_points : list Coordinates) :
  StronglySorted (fun x y => fleb x y = true)
                 (calculate_cumulative_distances geodesic_miles route_points).
Proof.
  unfold calculate_cumulative_distances.
  destruct route_points as [|first rest].
  - constructor; constructor.
  - apply cumulative_loop_sorted.
Qed.

Lemma sorted_nth_error {T : Type} (R : T -> T -> Prop) (l : list T) :
  StronglySorted R l ->
  forall i j a b, i < j -> nth_error l i = Some a -> nth_error l j = Some b ->
                  R a b.
Proof.
  induction 1 as [|x l Hs IH Hx]; intros i j a b Hij Ha Hb.
  - destruct i; discriminate.
  - destruct j as [|j]; [lia|]. simpl in Hb.
    destruct i as [|i]; simpl in Ha.
    + inversion Ha; subst. rewrite Forall_forall in Hx.
      apply Hx. eapply nth_error_In; eauto.
    + apply (IH i j); [lia|assumption|assumption].
Qed.

Lemma cumulative_monotone (route_points : list Coordinates) (i j : nat)
    (a b : num) :
  i <= j ->
  nth_error (calculate_cumulative_distances geodesic_miles route_points) i
  = Some a ->
  nth_error (calculate_cumulative_distances geodesic_miles route_points) j
  = Some b ->
  fleb a b = true.
Proof.
  intros Hij Ha Hb.
  destruct (Nat.eq_dec i j) as [->|Hne].
  - rewrite Ha in Hb. inversion Hb; subst. apply fle_refl.
  - apply (sorted_nth_error _ _ (cumulative_sorted route_points) i j);
      [lia|assumption|assumption].
Qed.

Lemma segments_loop_figures (route : Route) (all_points : list Coordinates)
    (range : list nat) :
  forall segs,
    segments_loop geodesic_miles range route
      (calculate_cumulative_distances geodesic_miles (geometry route)) all_points
    = Ok segs ->
    Forall (fun seg =>
              exists d,
                calculate_route_segment_distance geodesic_miles
                  (start_coordinates seg) (end_coordinates seg) (geometry route)
                  (calculate_cumulative_distances geodesic_miles (geometry route))
                = Ok d
                /\ seg_distance seg = fround2 d
                /\ gas_needed_gallons seg = fround2 (fdiv d (of_int GAS_EFFICIENCY)))
           segs.
Proof.
  induction range as [|i range IH]; intros segs Hrun; simpl in Hrun.
  - inversion Hrun. constructor.
  - destruct (index all_points i) as [s|e]; cbn [bind] in Hrun; [|discriminate].
    destruct (index all_points (S i)) as [t|e]; cbn [bind] in Hrun; [|discriminate].
    destruct (calculate_route_segment_distance geodesic_miles s t (geometry route) _)
      as [d|e] eqn:Hd; cbn [bind] in Hrun; [|discriminate].
    destruct (segments_loop geodesic_miles range route _ all_points)
      as [segs'|e]; cbn [bind] in Hrun; [|discriminate].
    inversion Hrun; subst. constructor; [|now apply IH].
    exists d. cbn [start_coordinates end_coordinates seg_distance
                   gas_needed_gallons]. auto.
Qed.

Lemma forward_segment_nonneg (route : Route) (stops : list GasStop)
    (segs : list RouteSegment) :
  calculate_route_segments geodesic_miles route stops = Ok segs ->
  forall seg s e,
    In seg segs ->
    find_closest_route_point_index geodesic_miles (start_coordinates seg)
      (geometry route) = Ok s ->
    find_closest_route_point_index geodesic_miles (end_coordinates seg)
      (geometry route) = Ok e ->
    s <= e ->
    fleb (flit 0) (seg_distance seg) = true
    /\ fleb (flit 0) (gas_needed_gallons seg) = true.
Proof.
  unfold calculate_route_segments. cbv zeta. intros Hrun seg s e Hin Hs He Hse.
  apply segments_loop_figures in Hrun. rewrite Forall_forall in Hrun.
  destruct (Hrun seg Hin) as (d & Hd & -> & ->).
  unfold calculate_route_segment_distance in Hd.
  rewrite Hs, He in Hd. cbn [bind] in Hd.
  unfold index in Hd.
  destruct (nth_error _ e) as [ce|] eqn:Ee; cbn [bind] in Hd; [|discriminate].
  destruct (nth_error _ s) as [cs|] eqn:Es; cbn [bind] in Hd; [|discriminate].
  inversion Hd; subst d.
  assert (Hd0 : fleb (flit 0) (fadd (fsub ce cs) DETOUR_ALLOWANCE) = true).
  { apply (fadd_nonneg A).
    - apply (fsub_nonneg A). exact (cumulative_monotone _ s e cs ce Hse Es Ee).
    - apply (flit_nonneg A). discriminate. }
  split.
  - now apply (fround2_nonneg A).
  - apply (fround2_nonneg A), (fdiv_nonneg A); [reflexivity|exact Hd0].
Qed.

(** C9 (as amended). A segment that [calculate_route_segments] produces has
    non-negative distance and non-negative fuel whenever the route point
    nearest to its end is not before the route point nearest to its
    start. *)
Theorem forward_segments_are_nonnegative (route : Route) (stops : list GasStop)
    (segs : list RouteSegment) :
  calculate_route_segments geodesic_miles route stops = Ok segs ->
  forall seg s e,
    In seg segs ->
    find_closest_route_point_index geodesic_miles (start_coordinates seg)
      (geometry route) = Ok s ->
    find_closest_route_point_index geodesic_miles (end_coordinates seg)
      (geometry route) = Ok e ->
    s <= e ->
    fleb (flit 0) (seg_distance seg) = true
    /\ fleb (flit 0) (gas_needed_gallons seg) = true.
Proof. exact (forward_segment_nonneg route stops segs). Qed.

End Arith.

End Order.

End Facts.

(** * The exact instance satisfies the laws *)

Lemma Q_order : FloatOrder QFloat.
Proof.
  constructor; cbn [num fleb fltb feqb QFloat].
  - intros x y. rewrite !Qle_bool_iff.
    destruct (Qlt_le_dec x y) as [H|H]; [left; now apply Qlt_le_weak | now right].
  - intros x y z. rewrite !Qle_bool_iff. apply Qle_trans.
  - reflexivity.
  - reflexivity.
Qed.

Lemma q_round2_nonneg (x : Q) : (0 <= x)%Q -> (0 <= q_round2 x)%Q.
Proof.
  intros Hx. unfold q_round2. rewrite Qred_correct.
  assert (Hn : (0 <= Qnum x * 100)%Z).
  { unfold Qle in Hx. simpl in Hx. lia. }
  assert (Hq : (0 <= (Qnum x * 100) / Zpos (Qden x))%Z)
    by (apply Z.div_pos; lia).
  set (q := (Qnum x * 100 / Zpos (Qden x))%Z) in *.
  unfold Qle. cbn [Qnum Qden].
  destruct (2 * _ <? _)%Z; [lia|].
  destruct (_ <? 2 * _)%Z; [lia|].
  destruct (Z.even q); lia.
Qed.

Lemma Q_arith : FloatArith QFloat.
Proof.
  constructor; cbn [num fleb fadd fsub fdiv fround2 of_int flit QFloat].
  - intros x. rewrite !Qle_bool_iff, !Qred_correct. apply q_round2_nonneg.
  - intros x y. rewrite !Qle_bool_iff, !Qred_correct. intros Hx Hy.
    rewrite <- (Qplus_0_l 0). now apply Qplus_le_compat.
  - intros x d. rewrite !Qle_bool_iff, !Qred_correct. intros Hd.
    rewrite <- (Qplus_0_r x) at 1. apply Qplus_le_compat; [apply Qle_refl|exact Hd].
  - intros x y. rewrite !Qle_bool_iff, !Qred_correct. intros Hxy.
    unfold Qminus. rewrite <- (Qplus_opp_r x).
    apply Qplus_le_compat; [exact Hxy|apply Qle_refl].
  - intros x n Hn. rewrite !Qle_bool_iff, !Qred_correct. intros Hx.
    apply Qle_shift_div_l.
    + unfold Qlt. simpl. lia.
    + now rewrite Qmult_0_l.
  - intros q Hq. rewrite Qle_bool_iff, !Qred_correct. exact Hq.
Qed.

Lemma grid_miles_nonneg (a b : @Coordinates QFloat) :
  fleb (flit 0) (grid_miles a b) = true.
Proof.
  cbn [fleb flit QFloat]. rewrite Qle_bool_iff. unfold grid_miles.
  rewrite !Qred_correct.
  assert (Hlat : (0 <= q_abs_diff (latitude a) (latitude b))%Q)
    by apply Qabs_nonneg.
  assert (Hlon : (0 <= q_lon_diff (longitude a) (longitude b))%Q).
  { unfold q_lon_diff.
    destruct (Qle_bool (q_abs_diff (longitude a) (longitude b)) 180) eqn:E.
    - apply Qabs_nonneg.
    - apply Qabs_nonneg. }
  apply Qmult_le_0_compat; [discriminate|].
  rewrite <- (Qplus_0_l 0). now apply Qplus_le_compat.
Qed.

(** * The theorems at work on the example data *)

Lemma total_cost_pairs_by_index_witness :
  @fround2 QFloat (flit 0) = flit 0
  /\ length Example.two_segments = S (length [Example.highway_stop])
  /\ calculate_total_gas_cost Example.two_segments [Example.highway_stop]
     = fround2 (fold_left fadd
                  (map leg_cost
                       (combine Example.two_segments [Example.highway_stop]))
                  (flit 0))
  /\ (forall final : RouteSegment,
        calculate_total_gas_cost
          (removelast Example.two_segments ++ [final]) [Example.highway_stop]
        = calculate_total_gas_cost Example.two_segments [Example.highway_stop]).
Proof.
  split; [reflexivity|]. split; [reflexivity|].
  apply (total_cost_pairs_by_index (F := QFloat)); reflexivity.
Defined.

Lemma select_cheapest_is_first_min_witness :
  FloatOrder QFloat
  /\ ([0; 1] <> [] ->
      exists i s,
        snd (select_cheapest_gas_stop Example.loaded [0; 1]) = Some s
        /\ first_min
             (fun stop => price_per_gallon
                (fst (select_cheapest_gas_stop Example.loaded [0; 1]) stop))
             [0; 1] i s).
Proof.
  split; [exact Q_order|].
  exact (proj2 (select_cheapest_is_first_min Q_order Example.loaded [0; 1])).
Defined.

Lemma short_route_plan_witness :
  fleb (distance Example.route_short) (of_int VEHICLE_RANGE) = true
  /\ calculate_waypoints grid_miles 10 Example.route_short = Some (Ok [])
  /\ exists plan st',
       optimize_route grid_miles Example.gas_data 10 Example.route_short
                      Example.fresh
       = Some (Ok (plan, st'))
       /\ gas_stops plan = []
       /\ length (segments plan) = 1
       /\ total_gas_cost plan = flit 0.
Proof.
  split; [reflexivity|].
  apply (short_route_plan grid_miles Example.gas_data Example.route_short 10
                          Example.fresh).
  reflexivity.
Defined.

Lemma waypoints_are_bracket_starts_witness :
  fleb (distance Example.route_AB) (of_int VEHICLE_RANGE) = false
  /\ 2 < 10
  /\ (forall t, In t (@targets 2) ->
                fltb (of_int t) (distance Example.route_AB) = true)
  /\ fltb (of_int (WAYPOINT_INTERVAL * Z.of_nat 3)) (distance Example.route_AB)
     = false
  /\ calculate_waypoints grid_miles 10 Example.route_AB
     = Some (Ok (flat_map (emitted grid_miles Example.route_AB) (targets 2))).
Proof.
  assert (Hbelow : forall t, In t (@targets 2) ->
                     fltb (of_int t) (distance Example.route_AB) = true).
  { intros t [<-|[<-|[]]]; reflexivity. }
  split; [reflexivity|]. split; [lia|]. split; [exact Hbelow|].
  split; [reflexivity|].
  apply (waypoints_are_bracket_starts grid_miles Example.route_AB 2 10);
    [reflexivity | lia | exact Hbelow | reflexivity].
Defined.

Lemma bonus_reaches_the_catalog_witness :
  NoDup [0; 1] /\ In 0 [0; 1]
  /\ str_contains "I-" (address (Example.loaded 0)) = true
  /\ fst (select_cheapest_gas_stop Example.loaded [0; 1]) 0
     = set_price (Example.loaded 0)
                 (fsub (price_per_gallon (Example.loaded 0)) HIGHWAY_BONUS).
Proof.
  assert (Hnd : NoDup [0; 1]).
  { constructor; [simpl; intros [H|[]]; discriminate|].
    constructor; [intros []|constructor]. }
  assert (Hin : In 0 [0; 1]) by (now left).
  split; [exact Hnd|]. split; [exact Hin|]. split; [reflexivity|].
  exact (proj1 (bonus_reaches_the_catalog grid_miles Example.gas_data)
               Example.loaded [0; 1] 0 Hnd Hin eq_refl).
Defined.

Lemma segments_follow_the_chain_witness :
  exists segs,
    calculate_route_segments grid_miles Example.route_AB [Example.highway_stop]
    = Ok segs
    /\ length segs = 2
    /\ forall i seg, nth_error segs i = Some seg ->
         nth_error (all_points_of Example.route_AB [Example.highway_stop]) i
         = Some (start_coordinates seg)
         /\ nth_error (all_points_of Example.route_AB [Example.highway_stop]) (S i)
            = Some (end_coordinates seg).
Proof.
  exact (segments_follow_the_chain grid_miles Example.route_AB
                                   [Example.highway_stop]).
Defined.

Lemma antimeridian_finite :
  forall p, In p Example.antimeridian ->
            fltb (grid_miles Example.near_antimeridian p) finf = true.
Proof. intros p [<-|[<-|[]]]; reflexivity. Qed.

Lemma closest_index_two_stage_witness :
  FloatOrder QFloat
  /\ Example.antimeridian <> []
  /\ (forall p, In p Example.antimeridian ->
                fltb (grid_miles Example.near_antimeridian p) finf = true)
  /\ exists k best,
       find_closest_route_point_index grid_miles Example.near_antimeridian
                                      Example.antimeridian
       = Ok (snd best)
       /\ first_min (geo_key grid_miles Example.near_antimeridian
                             Example.antimeridian)
                    (top_candidates Example.near_antimeridian
                                    Example.antimeridian) k best.
Proof.
  assert (Hne : Example.antimeridian <> []) by discriminate.
  split; [exact Q_order|]. split; [exact Hne|].
  split; [exact antimeridian_finite|].
  exact (proj2 (proj2 (proj2 (proj2
           (closest_index_two_stage grid_miles Q_order
              Example.near_antimeridian Example.antimeridian
              Hne antimeridian_finite))))).
Defined.

(** C4, as stated, fails: the two points of [Example.antimeridian] are at
    the same geodesic distance from the target and both are kept; the
    search returns index 1, the nearer one on the plane, not index 0. *)
Lemma tie_is_not_given_to_lowest_index :
  ~ ties_to_lowest_index grid_miles Example.near_antimeridian
                         Example.antimeridian.
Proof.
  intros H.
  specialize (H 1 eq_refl (Qred (128881 # 1), 0)).
  assert (Hle : 1 <= 0).
  { apply H; [right; left; reflexivity | reflexivity]. }
  lia.
Qed.

Lemma forward_segments_are_nonnegative_witness :
  FloatOrder QFloat /\ FloatArith QFloat
  /\ (forall a b, fleb (flit 0) (grid_miles a b) = true)
  /\ calculate_route_segments grid_miles Example.route_AB
                               [Example.highway_stop]
     = Ok Example.two_segments
  /\ In Example.last_leg Example.two_segments
  /\ 0 <= 1
  /\ fleb (flit 0) (seg_distance Example.last_leg) = true
  /\ fleb (flit 0) (gas_needed_gallons Example.last_leg) = true.
Proof.
  assert (Hin : In Example.last_leg Example.two_segments)
    by (right; left; reflexivity).
  assert (Hle : 0 <= 1) by lia.
  split; [exact Q_order|]. split; [exact Q_arith|].
  split; [exact grid_miles_nonneg|]. split; [reflexivity|].
  split; [exact Hin|]. split; [exact Hle|].
  exact (forward_segments_are_nonnegative grid_miles Q_order Q_arith
           grid_miles_nonneg Example.route_AB [Example.highway_stop]
           Example.two_segments eq_refl Example.last_leg 0 1 Hin
           eq_refl eq_refl Hle).
Defined.

(** C9, as stated, fails: on [Example.route_BA] the origin is nearest to the
    last route point and the destination to the first, and the one segment
    gets distance -1370 and fuel -137. *)
Lemma backward_segment_is_negative :
  ~ (forall segs,
       calculate_route_segments grid_miles Example.route_BA [] = Ok segs ->
       all_nonnegative segs).
Proof.
  intros H. specialize (H _ eq_refl).
  inversion H as [|seg rest [Hd _] _]; subst.
  vm_compute in Hd. discriminate.
Qed.

(** ** The bonus on shared records, run on the example *)

(** C2 at [Example.route_AB]: both targets of the run fall in the one
    bracket of the route, the highway stop is a candidate at both waypoints
    and is chosen twice, and its price ends at the loaded price less twice
    the bonus. *)
Theorem highway_stop_discounted_twice :
  exists plan st',
    Example.run Example.route_AB Example.fresh = Some (Ok (plan, st'))
    /\ gas_stops plan = [0; 0]
    /\ nearby_stations plan = [[0; 1]; [0; 1]]
    /\ price_per_gallon (objects st' 0)
       = fsub (fsub (price_per_gallon Example.highway_stop) HIGHWAY_BONUS)
              HIGHWAY_BONUS
    /\ price_per_gallon (objects st' 0)
       <> fsub (price_per_gallon Example.highway_stop) HIGHWAY_BONUS.
Proof.
  eexists. eexists. split; [vm_compute; reflexivity|].
  split; [reflexivity|]. split; [reflexivity|].
  split; [vm_compute; reflexivity | vm_compute; discriminate].
Qed.

(** C3 at [Example.route_AB]: a second run in the same process, on the same
    route and the same station file, reports other prices and another
    total than the first. *)
Theorem second_run_differs :
  Example.report Example.route_AB Example.fresh
  = Some ([17 # 5; 17 # 5], 34 # 5)
  /\ Example.report Example.route_AB
       (Example.state_after Example.route_AB Example.fresh)
     = Some ([33 # 10; 33 # 10], 33 # 5)
  /\ GAS_STOPS (Example.state_after Example.route_AB Example.fresh) = [0; 1]
  /\ Example.report Example.route_AB Example.fresh
     <> Example.report Example.route_AB
          (Example.state_after Example.route_AB Example.fresh).
Proof.
  split; [vm_compute; reflexivity|].
  split; [vm_compute; reflexivity|].
  split; [vm_compute; reflexivity|].
  vm_compute. discriminate.
Qed.
